(** * The Battleship transaction family: validation and application

    A shallow embedding of [sawtooth_battleship/txn_family.py]
    (class [BattleshipTransaction]: [__init__], [is_valid], [check_valid],
    [apply] and [dump]; the constructor of [BattleshipTransactionMessage])
    together with the properties of its validator and applier.

    Python dictionaries are finite maps ([gmap]); the store that the
    methods receive and update in place is threaded explicitly through a
    small state-and-exception monad, so that "the call does not touch the
    store" and "the call raises" are both statements about a returned
    pair. *)

From Stdlib Require Import String Ascii Bool.
From stdpp Require Import base decidable option strings gmap.

Open Scope string_scope.

Module Battleship.

(** ** Data *)

(** A store key is whatever [self._name] holds: [None] or a [str]. *)
Abbreviation key := (option string).

(** A game record is a dict from field names (['State'], ['Player1'], ...)
    to strings, the only values the methods write or compare with; the
    store maps game names to game records. *)
Abbreviation game := (gmap string string).
Abbreviation store := (gmap key game).

(** The exceptions the two methods can leave with.  Only
    [BattleshipException] is the family's own; the others are Python's. *)
Inductive exn : Type :=
| BattleshipException (msg : string)
| KeyError (k : key)
| NameError (ident : string)
| TypeError.

Inductive outcome (A : Type) : Type :=
| Return (a : A)
| Raise (e : exn).
Arguments Return {A} a.
Arguments Raise {A} e.

(** ** The monad: a computation reads and writes the store and either
    returns or raises; writes made before a raise persist, as in Python. *)
Definition M (A : Type) : Type := store → outcome A * store.

#[global] Instance M_ret : MRet M := λ A a s, (Return a, s).
#[global] Instance M_bind : MBind M := λ A B f m s,
  match m s with
  | (Return a, s') => f a s'
  | (Raise e, s') => (Raise e, s')
  end.

Definition raise {A : Type} (e : exn) : M A := λ s, (Raise e, s).

(** [try: m except BattleshipException: h] *)
Definition try_except_battleship {A : Type} (m : M A) (h : string → M A) : M A :=
  λ s, match m s with
       | (Raise (BattleshipException msg), s') => h msg s'
       | r => r
       end.

(** [k in store] *)
Definition contains (k : key) : M bool :=
  λ s, (Return (bool_decide (is_Some (s !! k))), s).

(** [store[k]] *)
Definition getitem (k : key) : M game :=
  λ s, match s !! k with
       | Some g => (Return g, s)
       | None => (Raise (KeyError k), s)
       end.

(** [store[k] = g] *)
Definition setitem (k : key) (g : game) : M unit :=
  λ s, (Return (), <[k := g]> s).

(** [g[f]] on a game record *)
Definition field (g : game) (f : string) : M string :=
  match g !! f with
  | Some v => mret v
  | None => raise (KeyError (Some f))
  end.

(** ** Transactions *)

(** The attributes of a [BattleshipTransaction] that the methods read:
    [_name] and [_action] set by the constructor, and [OriginatorID],
    the signer's identity, a property of the base class that
    [check_valid] reads only once the base check has passed.

    The two attributes are typed as the wire record gives them: a
    string, or [None] when absent.  The constructor itself does not
    test the type, and a ['Name'] of another type (a number, a list) is
    outside this model: in the source it reaches [in store] and
    [re.match], which raise [TypeError] for it.  Every statement below
    about which exceptions can occur is therefore a statement about
    transactions whose name and action are strings or [None]. *)
Record BattleshipTransaction : Type := {
  _name : option string;
  _action : option string;
  OriginatorID : string
}.

(** [__init__]: only ['Name'] and ['Action'] are taken from [minfo]; any
    ['Board'], ['Column'] or ['Row'] entry is dropped. *)
Definition init (minfo : gmap string string) (originator : string)
  : BattleshipTransaction :=
  {| _name := minfo !! "Name";
     _action := minfo !! "Action";
     OriginatorID := originator |}.

(** [x is None or x == ''] *)
Definition unset (x : option string) : bool :=
  match x with
  | None => true
  | Some s => bool_decide (s = "")
  end.

(** [self._action == a] *)
Definition action_is (self : BattleshipTransaction) (a : string) : bool :=
  bool_decide (_action self = Some a).

(** ['{}'.format(x)] *)
Definition format (x : option string) : string :=
  match x with
  | Some s => s
  | None => "None"
  end.

(** ** The name pattern *)

Definition is_alnum (c : ascii) : bool :=
  let n := nat_of_ascii c in
  (Nat.leb 97 n && Nat.leb n 122) || (Nat.leb 65 n && Nat.leb n 90)
  || (Nat.leb 48 n && Nat.leb n 57).

Definition newline : ascii := ascii_of_nat 10.

(** [re.match("^[a-zA-Z0-9]*$", s)] as a boolean.  Python's [$] matches
    at the end of the string and also just before a newline that ends
    the string. *)
Fixpoint re_match_name (s : string) : bool :=
  match s with
  | EmptyString => true
  | String c rest =>
      if is_alnum c then re_match_name rest
      else bool_decide (c = newline) && bool_decide (rest = "")
  end.

(** [re.match(pattern, x)] raises [TypeError] when [x] is not a string;
    of the names typed here, that is [None]. *)
Definition re_match (x : option string) : M bool :=
  match x with
  | Some s => mret (re_match_name s)
  | None => raise TypeError
  end.

Section Family.

(** The base class check [super().is_valid(store)] (signature
    verification in the journal) is outside this module: a parameter. *)
Variable super_is_valid : BattleshipTransaction → store → bool.

Definition super_valid (self : BattleshipTransaction) : M bool :=
  λ s, (Return (super_is_valid self s), s).

(** The [FIRE] branch of [check_valid]. *)
Definition check_fire (self : BattleshipTransaction) : M unit :=
  present ← contains (_name self);
  if negb present then raise (BattleshipException "no such game") else
  g ← getitem (_name self);
  state ← field g "State";
  if bool_decide (state = "P1-WIN") || bool_decide (state = "P2-WIN")
  then raise (BattleshipException "game complete") else
  if bool_decide (state = "P1-NEXT") then
    g1 ← getitem (_name self);
    player ← field g1 "Player1";
    if negb (bool_decide (player = OriginatorID self))
    then raise (BattleshipException "invalid player 1") else mret ()
  else if bool_decide (state = "P2-NEXT") then
    g2 ← getitem (_name self);
    player ← field g2 "Player2";
    if negb (bool_decide (player = OriginatorID self))
    then raise (BattleshipException "invalid player 2") else mret ()
  else raise (BattleshipException ("invalid state: " ++ state)).

Definition check_valid (self : BattleshipTransaction) : M unit :=
  ok ← super_valid self;
  if negb ok then raise (BattleshipException "invalid transaction") else
  if unset (_name self) then raise (BattleshipException "name not set") else
  if unset (_action self) then raise (BattleshipException "action not set") else
  if action_is self "CREATE" then
    taken ← contains (_name self);
    if (taken : bool) then raise (BattleshipException "game already exists") else
    ok ← re_match (_name self);
    if negb ok
    then raise (BattleshipException
      "Only letters a-z A-Z and numbers 0-9 are allowed in the game name!")
    else mret ()
  else if action_is self "JOIN" then
    present ← contains (_name self);
    if negb present
    then raise (BattleshipException "Trying to join a game that does not exist")
    else mret ()
  else if action_is self "FIRE" then check_fire self
  else raise (BattleshipException ("invalid action: " ++ format (_action self))).

Definition is_valid (self : BattleshipTransaction) : M bool :=
  try_except_battleship
    (_ ← check_valid self; mret true)
    (λ _, mret false).

(** [apply]: in the final [else] the name [state] is not bound in the
    method, so evaluating the argument of the [raise] fails first. *)
Definition apply (self : BattleshipTransaction) : M unit :=
  if action_is self "CREATE" then
    setitem (_name self) {[ "State" := "NEW" ]}
  else if action_is self "JOIN" then
    g ← getitem (_name self);
    setitem (_name self) (<["State" := "P1-NEXT"]> g)
  else if action_is self "FIRE" then
    g ← getitem (_name self);
    state ← field g "State";
    let g' :=
      if bool_decide (state = "P1-NEXT") then <["State" := "P2-NEXT"]> g
      else if bool_decide (state = "P2-NEXT") then <["State" := "P1-NEXT"]> g
      else g in
    setitem (_name self) g'
  else raise (NameError "state").

(** ** The runs of the two methods, path by path

    The same two methods as a relation between the inputs and what a
    run leaves behind: one rule for each path through the source.  The
    relation is shown below to describe exactly the functions above, and
    the proofs about all paths of a method go by cases on it. *)

(** The three generic checks at the top of [check_valid] pass. *)
Definition passes_generic (self : BattleshipTransaction) (s : store) : Prop :=
  super_is_valid self s = true ∧ unset (_name self) = false
  ∧ unset (_action self) = false.

Inductive check_fire_run (self : BattleshipTransaction) (s : store)
  : outcome unit → Prop :=
| cf_missing :
    s !! _name self = None →
    check_fire_run self s (Raise (BattleshipException "no such game"))
| cf_no_state g :
    s !! _name self = Some g → g !! "State" = None →
    check_fire_run self s (Raise (KeyError (Some "State")))
| cf_complete g st :
    s !! _name self = Some g → g !! "State" = Some st →
    st = "P1-WIN" ∨ st = "P2-WIN" →
    check_fire_run self s (Raise (BattleshipException "game complete"))
| cf_p1_no_player g :
    s !! _name self = Some g → g !! "State" = Some "P1-NEXT" →
    g !! "Player1" = None →
    check_fire_run self s (Raise (KeyError (Some "Player1")))
| cf_p1_other g p :
    s !! _name self = Some g → g !! "State" = Some "P1-NEXT" →
    g !! "Player1" = Some p → p ≠ OriginatorID self →
    check_fire_run self s (Raise (BattleshipException "invalid player 1"))
| cf_p1_ok g :
    s !! _name self = Some g → g !! "State" = Some "P1-NEXT" →
    g !! "Player1" = Some (OriginatorID self) →
    check_fire_run self s (Return ())
| cf_p2_no_player g :
    s !! _name self = Some g → g !! "State" = Some "P2-NEXT" →
    g !! "Player2" = None →
    check_fire_run self s (Raise (KeyError (Some "Player2")))
| cf_p2_other g p :
    s !! _name self = Some g → g !! "State" = Some "P2-NEXT" →
    g !! "Player2" = Some p → p ≠ OriginatorID self →
    check_fire_run self s (Raise (BattleshipException "invalid player 2"))
| cf_p2_ok g :
    s !! _name self = Some g → g !! "State" = Some "P2-NEXT" →
    g !! "Player2" = Some (OriginatorID self) →
    check_fire_run self s (Return ())
| cf_other_state g st :
    s !! _name self = Some g → g !! "State" = Some st →
    st ≠ "P1-WIN" → st ≠ "P2-WIN" → st ≠ "P1-NEXT" → st ≠ "P2-NEXT" →
    check_fire_run self s (Raise (BattleshipException ("invalid state: " ++ st))).

Inductive check_valid_run (self : BattleshipTransaction) (s : store)
  : outcome unit → Prop :=
| cv_invalid :
    super_is_valid self s = false →
    check_valid_run self s (Raise (BattleshipException "invalid transaction"))
| cv_no_name :
    super_is_valid self s = true → unset (_name self) = true →
    check_valid_run self s (Raise (BattleshipException "name not set"))
| cv_no_action :
    super_is_valid self s = true → unset (_name self) = false →
    unset (_action self) = true →
    check_valid_run self s (Raise (BattleshipException "action not set"))
| cv_create_exists :
    passes_generic self s → _action self = Some "CREATE" →
    is_Some (s !! _name self) →
    check_valid_run self s (Raise (BattleshipException "game already exists"))
| cv_create_pattern n :
    passes_generic self s → _action self = Some "CREATE" →
    s !! _name self = None → _name self = Some n → re_match_name n = false →
    check_valid_run self s (Raise (BattleshipException
      "Only letters a-z A-Z and numbers 0-9 are allowed in the game name!"))
| cv_create_ok n :
    passes_generic self s → _action self = Some "CREATE" →
    s !! _name self = None → _name self = Some n → re_match_name n = true →
    check_valid_run self s (Return ())
| cv_join_missing :
    passes_generic self s → _action self = Some "JOIN" →
    s !! _name self = None →
    check_valid_run self s
      (Raise (BattleshipException "Trying to join a game that does not exist"))
| cv_join_ok :
    passes_generic self s → _action self = Some "JOIN" →
    is_Some (s !! _name self) →
    check_valid_run self s (Return ())
| cv_fire r :
    passes_generic self s → _action self = Some "FIRE" →
    check_fire_run self s r →
    check_valid_run self s r
| cv_unknown a :
    passes_generic self s → _action self = Some a →
    a ≠ "CREATE" → a ≠ "JOIN" → a ≠ "FIRE" →
    check_valid_run self s (Raise (BattleshipException ("invalid action: " ++ a))).

End Family.

(** A run of [apply] leaves an outcome and a store. *)
Inductive apply_run (self : BattleshipTransaction) (s : store)
  : outcome unit → store → Prop :=
| ap_create :
    _action self = Some "CREATE" →
    apply_run self s (Return ()) (<[_name self := {[ "State" := "NEW" ]}]> s)
| ap_join_missing :
    _action self = Some "JOIN" → s !! _name self = None →
    apply_run self s (Raise (KeyError (_name self))) s
| ap_join g :
    _action self = Some "JOIN" → s !! _name self = Some g →
    apply_run self s (Return ())
      (<[_name self := <["State" := "P1-NEXT"]> g]> s)
| ap_fire_missing :
    _action self = Some "FIRE" → s !! _name self = None →
    apply_run self s (Raise (KeyError (_name self))) s
| ap_fire_no_state g :
    _action self = Some "FIRE" → s !! _name self = Some g →
    g !! "State" = None →
    apply_run self s (Raise (KeyError (Some "State"))) s
| ap_fire_p1 g :
    _action self = Some "FIRE" → s !! _name self = Some g →
    g !! "State" = Some "P1-NEXT" →
    apply_run self s (Return ())
      (<[_name self := <["State" := "P2-NEXT"]> g]> s)
| ap_fire_p2 g :
    _action self = Some "FIRE" → s !! _name self = Some g →
    g !! "State" = Some "P2-NEXT" →
    apply_run self s (Return ())
      (<[_name self := <["State" := "P1-NEXT"]> g]> s)
| ap_fire_other g st :
    _action self = Some "FIRE" → s !! _name self = Some g →
    g !! "State" = Some st → st ≠ "P1-NEXT" → st ≠ "P2-NEXT" →
    apply_run self s (Return ()) (<[_name self := g]> s)
| ap_unknown :
    _action self ≠ Some "CREATE" → _action self ≠ Some "JOIN" →
    _action self ≠ Some "FIRE" →
    apply_run self s (Raise (NameError "state")) s.

(** ** The rest of the class *)

(** A dict as [dump] returns it and as the constructor may receive it:
    a value is [None] or a string. *)
Abbreviation info := (gmap string (option string)).

(** [__init__] on such a dict: [minfo['Name'] if 'Name' in minfo else
    None], and the same for ['Action']. *)
Definition init_info (minfo : info) (originator : string)
  : BattleshipTransaction :=
  {| _name := default None (minfo !! "Name");
     _action := default None (minfo !! "Action");
     OriginatorID := originator |}.

(** [dump]: the dict of the base class's [dump] (a parameter, [base])
    with ['Name'] and ['Action'] set to the two attributes. *)
Definition dump (base : info) (self : BattleshipTransaction) : info :=
  <["Action" := _action self]> (<["Name" := _name self]> base).

(** [BattleshipTransactionMessage.__init__]: the transaction of a
    message is built from [minfo.get('Transaction', {})], where a
    missing [minfo] counts as the empty dict. *)
Definition message_transaction
    (minfo : option (gmap string (gmap string string))) (originator : string)
  : BattleshipTransaction :=
  let minfo := default ∅ minfo in
  init (default ∅ (minfo !! "Transaction")) originator.

(** A string of letters and digits. *)
Definition alnum_string (s : string) : Prop :=
  Forall (λ c, is_alnum c = true) (list_ascii_of_string s).

(** ** Shapes of stores *)

(** What [check_valid] lets a Create put into the store as a key. *)
Definition valid_name (k : key) : Prop :=
  ∃ n, k = Some n ∧ n ≠ "" ∧ re_match_name n = true.

(** The two records that validated Create and Join leave behind. *)
Definition opened (g : game) : Prop :=
  g = {[ "State" := "NEW" ]} ∨ g = {[ "State" := "P1-NEXT" ]}.

Definition family_store (s : store) : Prop :=
  ∀ k g, s !! k = Some g → valid_name k ∧ opened g.

(** A record with the three fields that [check_valid] reads. *)
Definition complete (g : game) : Prop :=
  is_Some (g !! "State") ∧ is_Some (g !! "Player1")
  ∧ is_Some (g !! "Player2").

(** ** Sample inputs *)

(** A store with a game being played and a game just created. *)
Definition two_games : store :=
  {[ Some "g" := {[ "State" := "P1-NEXT"; "Player1" := "A";
                    "Player2" := "B" ]};
     Some "h" := {[ "State" := "NEW" ]} ]}.

(** A base check that lets every transaction through. *)
Definition signed : BattleshipTransaction → store → bool := λ _ _, true.

(** A game record with both players, in the given state. *)
Definition game_in (state : string) : game :=
  {[ "State" := state; "Player1" := "A"; "Player2" := "B" ]}.

(** A store that holds one game, named [g]. *)
Definition only_g (g : game) : store := {[ Some "g" := g ]}.

Definition create_g (who : string) : BattleshipTransaction :=
  init {[ "Name" := "g"; "Action" := "CREATE" ]} who.

Definition join_g (who : string) : BattleshipTransaction :=
  init {[ "Name" := "g"; "Action" := "JOIN" ]} who.

Definition fire_g (who column row : string) : BattleshipTransaction :=
  init {[ "Name" := "g"; "Action" := "FIRE";
          "Column" := column; "Row" := row ]} who.

(** The store after [CREATE g] and one [JOIN g], each validated and then
    applied, starting from the empty store. *)
Definition after_create_join : store :=
  snd (Battleship.apply (join_g "A")
         (snd (Battleship.apply (create_g "A") ∅))).

(** ** Proof support *)

Ltac run_M :=
  unfold check_valid, check_fire, is_valid, Battleship.apply,
    try_except_battleship, super_valid, contains, getitem, setitem, field,
    re_match, raise, mbind, mret, M_bind, M_ret in *;
  simpl in *.

(** Follow every branch of an unfolded computation. *)
Ltac split_paths :=
  repeat first
    [ progress simplify_eq/=
    | match goal with
      | H : is_Some None |- _ => by destruct H
      | H : ¬ is_Some _ |- _ => apply eq_None_not_Some in H
      | H : is_Some (_ !! _) |- _ => destruct H
      | H : negb _ = true |- _ => apply negb_true_iff in H
      | H : negb _ = false |- _ => apply negb_false_iff in H
      end
    | case_bool_decide
    | case_match ].

Lemma unset_false (x : option string) :
  unset x = false ↔ ∃ n, x = Some n ∧ n ≠ "".
Proof.
  destruct x as [n|]; simpl.
  - rewrite bool_decide_eq_false. split.
    + intros Hn. by exists n.
    + by intros (m & [= <-] & Hm).
  - split; [done|]. by intros (m & Hm & _).
Qed.

(** The pattern accepts every string of letters and digits, and such a
    string followed by one newline. *)
Lemma re_match_name_alnum (s : string) :
  Forall (λ c, is_alnum c = true) (list_ascii_of_string s) →
  re_match_name s = true
  ∧ re_match_name (s ++ String newline "") = true.
Proof.
  induction s as [|c s IH]; simpl; [done|].
  intros [Hc Hs]%Forall_cons. rewrite Hc. by apply IH.
Qed.

Lemma action_is_true self a : action_is self a = true ↔ _action self = Some a.
Proof. apply bool_decide_eq_true. Qed.

Lemma action_is_false self a : action_is self a = false ↔ _action self ≠ Some a.
Proof. apply bool_decide_eq_false. Qed.

Section Properties.

Variable super_is_valid : BattleshipTransaction → store → bool.

(** *** The relations describe the functions *)

Lemma check_fire_run_sound self s r :
  check_fire_run self s r → check_fire self s = (r, s).
Proof.
  destruct 1; run_M;
    repeat match goal with
    | H : _ !! _ = _ |- _ => rewrite H; simpl
    | H : _ ∨ _ |- _ => destruct H; subst
    end; simpl; try done;
    repeat (case_bool_decide; simplify_eq; simpl; try done);
    exfalso; naive_solver.
Qed.

Lemma check_fire_run_complete self s r s' :
  check_fire self s = (r, s') → check_fire_run self s r ∧ s' = s.
Proof.
  intros H. run_M. split_paths; eauto 6 using check_fire_run.
Qed.

Lemma check_valid_run_sound self s r :
  check_valid_run super_is_valid self s r →
  check_valid super_is_valid self s = (r, s).
Proof.
  destruct 1 as [Hs|Hs Hn|Hs Hn Ha|[Hs [Hn Ha]] Hact Hin
                |n [Hs [Hn Ha]] Hact Hin Hname Hre
                |n [Hs [Hn Ha]] Hact Hin Hname Hre
                |[Hs [Hn Ha]] Hact Hin|[Hs [Hn Ha]] Hact Hin
                |r [Hs [Hn Ha]] Hact Hrun
                |a [Hs [Hn Ha]] Hact H1 H2 H3];
    unfold check_valid, super_valid, mbind, M_bind; rewrite Hs; simpl;
    unfold raise; try done; rewrite Hn; try done; rewrite Ha; try done;
    unfold action_is; rewrite Hact; simpl.
  - unfold contains. rewrite bool_decide_eq_true_2; done.
  - unfold contains, re_match, raise. rewrite Hin, Hname. simpl.
    by rewrite Hre.
  - unfold contains, re_match, mret, M_ret. rewrite Hin, Hname. simpl.
    by rewrite Hre.
  - unfold contains. by rewrite Hin.
  - unfold contains, mret, M_ret. rewrite bool_decide_eq_true_2; done.
  - by apply check_fire_run_sound.
  - rewrite !bool_decide_eq_false_2 by congruence. done.
Qed.

Lemma check_valid_run_complete self s r s' :
  check_valid super_is_valid self s = (r, s') →
  check_valid_run super_is_valid self s r ∧ s' = s.
Proof.
  unfold check_valid, super_valid, mbind, M_bind, raise.
  destruct (super_is_valid self s) eqn:Hs; simpl;
    [|intros; simplify_eq; eauto using check_valid_run].
  destruct (unset (_name self)) eqn:Hn;
    [intros; simplify_eq; eauto using check_valid_run|].
  destruct (unset (_action self)) eqn:Ha;
    [intros; simplify_eq; eauto using check_valid_run|].
  assert (passes_generic super_is_valid self s) as Hp by done.
  apply unset_false in Hn as (n & Hname & Hne).
  apply unset_false in Ha as (a & Hact & Hae).
  destruct (action_is self "CREATE") eqn:Hc.
  { apply action_is_true in Hc.
    unfold contains, re_match, mret, M_ret, raise. rewrite Hname. simpl.
    intros H. rewrite <- Hname in *.
    split_paths; eauto using check_valid_run. }
  destruct (action_is self "JOIN") eqn:Hj.
  { apply action_is_true in Hj. unfold contains, mret, M_ret. simpl.
    intros H. split_paths; eauto using check_valid_run. }
  destruct (action_is self "FIRE") eqn:Hf.
  { apply action_is_true in Hf. intros [Hrun ->]%check_fire_run_complete.
    eauto using check_valid_run. }
  apply action_is_false in Hc, Hj, Hf. rewrite Hact. simpl.
  intros; simplify_eq. split; [|done].
  apply cv_unknown; [done..| | |]; congruence.
Qed.

Lemma apply_run_sound self s r s' :
  apply_run self s r s' → Battleship.apply self s = (r, s').
Proof.
  destruct 1; unfold Battleship.apply, action_is;
    repeat match goal with
    | H : _action _ = _ |- _ => rewrite H; simpl
    | H : _action _ ≠ _ |- _ => rewrite (bool_decide_eq_false_2 _ H)
    end; try done;
    run_M;
    repeat match goal with
    | H : _ !! _ = _ |- _ => rewrite H; simpl
    end; try done;
    repeat (case_bool_decide; simplify_eq; simpl; try done).
Qed.

Lemma apply_run_complete self s r s' :
  Battleship.apply self s = (r, s') → apply_run self s r s'.
Proof.
  unfold Battleship.apply.
  destruct (action_is self "CREATE") eqn:Hc.
  { apply action_is_true in Hc. run_M. intros; simplify_eq.
    by constructor. }
  destruct (action_is self "JOIN") eqn:Hj.
  { apply action_is_true in Hj. run_M. intros H.
    split_paths; eauto using apply_run. }
  destruct (action_is self "FIRE") eqn:Hf.
  { apply action_is_true in Hf. run_M. intros H.
    split_paths; eauto using apply_run. }
  apply action_is_false in Hc, Hj, Hf. run_M. intros; simplify_eq.
  by constructor.
Qed.

(** *** Validation only reads the store *)

Lemma check_valid_store self s : snd (check_valid super_is_valid self s) = s.
Proof.
  destruct (check_valid super_is_valid self s) as [r s'] eqn:H.
  by apply check_valid_run_complete in H as [_ ->].
Qed.

Lemma is_valid_unfold self s :
  is_valid super_is_valid self s =
  match check_valid super_is_valid self s with
  | (Return _, s') => (Return true, s')
  | (Raise (BattleshipException _), s') => (Return false, s')
  | (Raise e, s') => (Raise e, s')
  end.
Proof.
  unfold is_valid, try_except_battleship, mbind, M_bind, mret, M_ret.
  by destruct (check_valid super_is_valid self s) as [[[]|[]] s'].
Qed.

Lemma is_valid_store self s : snd (is_valid super_is_valid self s) = s.
Proof.
  rewrite is_valid_unfold. pose proof (check_valid_store self s) as H.
  by destruct (check_valid super_is_valid self s) as [[[]|[]] s'].
Qed.

Lemma is_valid_true self s :
  fst (is_valid super_is_valid self s) = Return true
  ↔ fst (check_valid super_is_valid self s) = Return ().
Proof.
  rewrite is_valid_unfold.
  by destruct (check_valid super_is_valid self s) as [[[]|[]] s'].
Qed.

Lemma is_valid_false self s :
  fst (is_valid super_is_valid self s) = Return false
  ↔ ∃ msg, fst (check_valid super_is_valid self s)
           = Raise (BattleshipException msg).
Proof.
  rewrite is_valid_unfold.
  destruct (check_valid super_is_valid self s) as [[[]|[msg|k|x|]] s'];
    simpl; split; try done; try (intros [? ?]; done); eauto.
Qed.

(** C10.  [is_valid] returns [True] exactly when [check_valid] raises
    nothing, returns [False] exactly when [check_valid] raises a
    [BattleshipException], and neither call changes the store. *)
Theorem is_valid_reflects_check_valid self s :
  (fst (is_valid super_is_valid self s) = Return true
     ↔ fst (check_valid super_is_valid self s) = Return ())
  ∧ (fst (is_valid super_is_valid self s) = Return false
     ↔ ∃ msg, fst (check_valid super_is_valid self s)
              = Raise (BattleshipException msg))
  ∧ snd (is_valid super_is_valid self s) = s
  ∧ snd (check_valid super_is_valid self s) = s.
Proof.
  split_and!.
  - apply is_valid_true.
  - apply is_valid_false.
  - apply is_valid_store.
  - apply check_valid_store.
Qed.

(** The exceptions [check_valid] can leave with when name and action
    are strings or [None]: its own, or the [KeyError] of a lookup of
    ['State'], ['Player1'] or ['Player2'] in the game record during
    Fire. *)
Lemma check_valid_raises self s e :
  fst (check_valid super_is_valid self s) = Raise e →
  (∃ msg, e = BattleshipException msg)
  ∨ (_action self = Some "FIRE"
     ∧ ∃ f, e = KeyError (Some f) ∧ f ∈ ["State"; "Player1"; "Player2"]).
Proof.
  destruct (check_valid super_is_valid self s) as [r s'] eqn:H. simpl.
  intros ->. apply check_valid_run_complete in H as [Hrun _].
  inversion Hrun as [| | | | | | | |r Hp Ha Hf|]; subst; eauto.
  inversion Hf; subst; eauto; right; (split; [done|]);
    eexists; (split; [done|]); set_solver.
Qed.

(** *** Create *)

(** A transaction that [check_valid] lets through has passed the three
    generic checks. *)
Lemma accepted_passes_generic self s :
  fst (check_valid super_is_valid self s) = Return () →
  passes_generic super_is_valid self s.
Proof.
  destruct (check_valid super_is_valid self s) as [r s'] eqn:H. simpl.
  intros ->. apply check_valid_run_complete in H as [Hrun _].
  inversion Hrun; subst; try done.
Qed.

Lemma create_existing self s :
  passes_generic super_is_valid self s →
  _action self = Some "CREATE" →
  is_Some (s !! _name self) →
  check_valid super_is_valid self s
  = (Raise (BattleshipException "game already exists"), s).
Proof.
  intros. by apply check_valid_run_sound, cv_create_exists.
Qed.

(** C7.  Once a Create of a name has been accepted, a second Create of
    that name on any store in which the name is present is rejected with
    the reason "game already exists", and the rejected call leaves the
    store, hence the existing game record and its state, as it was. *)
Theorem second_create_rejected first s0 second s :
  _action first = Some "CREATE" →
  fst (is_valid super_is_valid first s0) = Return true →
  _action second = Some "CREATE" →
  _name second = _name first →
  super_is_valid second s = true →
  is_Some (s !! _name second) →
  check_valid super_is_valid second s
    = (Raise (BattleshipException "game already exists"), s)
  ∧ is_valid super_is_valid second s = (Return false, s).
Proof.
  intros Hact1 Hok%is_valid_true%accepted_passes_generic Hact2 Hname Hs Hin.
  destruct Hok as (_ & Hn & _).
  assert (check_valid super_is_valid second s
          = (Raise (BattleshipException "game already exists"), s)) as Hcv.
  { apply create_existing; [|done..].
    split_and!; [done|by rewrite Hname|by rewrite Hact2]. }
  split; [done|]. by rewrite is_valid_unfold, Hcv.
Qed.

(** *** Order of the checks *)


(** *** Join and Fire as written *)

(** Join is let through in whatever state the game is. *)
Lemma join_present_accepted self s :
  passes_generic super_is_valid self s →
  _action self = Some "JOIN" →
  is_Some (s !! _name self) →
  is_valid super_is_valid self s = (Return true, s).
Proof.
  intros Hp Ha Hin. rewrite is_valid_unfold.
  by rewrite (check_valid_run_sound _ _ _ (cv_join_ok _ _ _ Hp Ha Hin)).
Qed.

(** Applying a Join moves the game to [P1-NEXT] and sets nothing else. *)
Lemma apply_join self s g :
  _action self = Some "JOIN" → s !! _name self = Some g →
  Battleship.apply self s
  = (Return (), <[_name self := <["State" := "P1-NEXT"]> g]> s).
Proof. intros. by apply apply_run_sound, ap_join. Qed.

(** Fire on a finished game is rejected. *)
Lemma fire_finished_rejected self s g st :
  passes_generic super_is_valid self s →
  _action self = Some "FIRE" →
  s !! _name self = Some g → g !! "State" = Some st →
  st = "P1-WIN" ∨ st = "P2-WIN" →
  is_valid super_is_valid self s = (Return false, s).
Proof.
  intros Hp Ha Hg Hst Hwin. rewrite is_valid_unfold.
  by rewrite (check_valid_run_sound _ _ _
    (cv_fire _ _ _ _ Hp Ha (cf_complete _ _ _ _ Hg Hst Hwin))).
Qed.

(** Applying a Fire rewrites the ['State'] field at most: every other
    field of the game record is kept, none is added, and the state
    becomes a win state only if it was that state before. *)
Lemma apply_fire_touches_state_only self s g r s' :
  _action self = Some "FIRE" → s !! _name self = Some g →
  Battleship.apply self s = (r, s') →
  ∃ g', s' !! _name self = Some g'
        ∧ (∀ f, f ≠ "State" → g' !! f = g !! f)
        ∧ (∀ st, st = "P1-WIN" ∨ st = "P2-WIN" →
                 g' !! "State" = Some st → g !! "State" = Some st).
Proof.
  intros Ha Hg Hrun%apply_run_complete.
  inversion Hrun; subst; simplify_eq.
  - exists g. by split_and!.
  - eexists. rewrite lookup_insert_eq. split_and!; [done| |].
    + intros f Hf. by rewrite lookup_insert_ne.
    + intros st [-> | ->]; rewrite lookup_insert_eq; done.
  - eexists. rewrite lookup_insert_eq. split_and!; [done| |].
    + intros f Hf. by rewrite lookup_insert_ne.
    + intros st [-> | ->]; rewrite lookup_insert_eq; done.
  - exists g. rewrite lookup_insert_eq. by split_and!.
Qed.

End Properties.

(** The transaction keeps the name, the action and the signer only:
    two records that agree on ['Name'] and ['Action'] give the same
    transaction, whatever their ['Board'], ['Column'] and ['Row']. *)
Lemma init_name_action_only (minfo minfo' : gmap string string) who :
  minfo !! "Name" = minfo' !! "Name" →
  minfo !! "Action" = minfo' !! "Action" →
  init minfo who = init minfo' who.
Proof. unfold init. by intros -> ->. Qed.

(** ** The methods on sample inputs *)

(** C1.  A Fire by player A at column B, row 4, on a game in [P1-NEXT]
    passes validation, and applying it only moves the state to [P2-NEXT]:
    the resulting record has the fields it had, marks no cell on any
    target board, and no test for a win is made. *)
Theorem fire_only_flips_turn :
  is_valid signed (fire_g "A" "B" "4") (only_g (game_in "P1-NEXT"))
    = (Return true, only_g (game_in "P1-NEXT"))
  ∧ Battleship.apply (fire_g "A" "B" "4") (only_g (game_in "P1-NEXT"))
    = (Return (), only_g (game_in "P2-NEXT"))
  ∧ game_in "P2-NEXT" !! "TargetBoard1" = None
  ∧ fire_g "A" "B" "4" = fire_g "A" "J" "10".
Proof. split_and!; reflexivity. Qed.

(** C2.  On the store left by Create, the first Join passes validation and
    applying it moves the game straight to [P1-NEXT]; the record holds
    no player and no board afterwards. *)
Theorem first_join_starts_play :
  Battleship.apply (create_g "A") ∅
    = (Return (), only_g {[ "State" := "NEW" ]})
  ∧ is_valid signed (join_g "A") (only_g {[ "State" := "NEW" ]})
    = (Return true, only_g {[ "State" := "NEW" ]})
  ∧ Battleship.apply (join_g "A") (only_g {[ "State" := "NEW" ]})
    = (Return (), only_g {[ "State" := "P1-NEXT" ]}).
Proof. split_and!; reflexivity. Qed.

(** C3.  On a game that player 1 has won, a Fire is rejected with "game
    complete", but a Join passes validation, and applying it puts the
    finished game back to [P1-NEXT]. *)
Theorem join_reopens_finished_game :
  check_valid signed (fire_g "A" "B" "4") (only_g (game_in "P1-WIN"))
    = (Raise (BattleshipException "game complete"), only_g (game_in "P1-WIN"))
  ∧ is_valid signed (join_g "C") (only_g (game_in "P1-WIN"))
    = (Return true, only_g (game_in "P1-WIN"))
  ∧ Battleship.apply (join_g "C") (only_g (game_in "P1-WIN"))
    = (Return (), only_g (game_in "P1-NEXT")).
Proof. split_and!; reflexivity. Qed.

(** C4.  A Join of a game that does not exist is rejected; a Join of a
    game that is being played ([P2-NEXT]), sent without any board by the
    signer who is already its player 1, passes validation. *)
Theorem join_accepted_on_running_game :
  check_valid signed (join_g "A") ∅
    = (Raise (BattleshipException "Trying to join a game that does not exist"),
       ∅)
  ∧ game_in "P2-NEXT" !! "Player1" = Some (OriginatorID (join_g "A"))
  ∧ is_valid signed (join_g "A") (only_g (game_in "P2-NEXT"))
    = (Return true, only_g (game_in "P2-NEXT")).
Proof. split_and!; reflexivity. Qed.

(** C5.  A Fire at column Z, row 11 passes validation.  So does a Fire
    by A at B4 that repeats an earlier one: after A fires at B4 and B
    fires at C7 the store is the one A first fired on, on which the same
    Fire was accepted. *)
Theorem fire_cell_unchecked :
  is_valid signed (fire_g "A" "Z" "11") (only_g (game_in "P1-NEXT"))
    = (Return true, only_g (game_in "P1-NEXT"))
  ∧ is_valid signed (fire_g "A" "B" "4") (only_g (game_in "P1-NEXT"))
    = (Return true, only_g (game_in "P1-NEXT"))
  ∧ Battleship.apply (fire_g "A" "B" "4") (only_g (game_in "P1-NEXT"))
    = (Return (), only_g (game_in "P2-NEXT"))
  ∧ is_valid signed (fire_g "B" "C" "7") (only_g (game_in "P2-NEXT"))
    = (Return true, only_g (game_in "P2-NEXT"))
  ∧ Battleship.apply (fire_g "B" "C" "7") (only_g (game_in "P2-NEXT"))
    = (Return (), only_g (game_in "P1-NEXT")).
Proof. split_and!; reflexivity. Qed.

(** C8.  [check_valid] turns down a record with an unknown action, and
    one with no field at all, with a [BattleshipException].  Two calls
    leave with another exception: [apply] of an unknown action raises
    [NameError], and after a validated Create and a validated Join of a
    game, validating a Fire on it raises [KeyError] out of both
    [check_valid] and [is_valid]. *)
Theorem uncontrolled_failures :
  check_valid signed (init {[ "Name" := "g"; "Action" := "MOVE" ]} "A") ∅
    = (Raise (BattleshipException "invalid action: MOVE"), ∅)
  ∧ check_valid signed (init ∅ "A") ∅
    = (Raise (BattleshipException "name not set"), ∅)
  ∧ Battleship.apply (init {[ "Name" := "g"; "Action" := "MOVE" ]} "A") ∅
    = (Raise (NameError "state"), ∅)
  ∧ is_valid signed (create_g "A") ∅ = (Return true, ∅)
  ∧ is_valid signed (join_g "A") (snd (Battleship.apply (create_g "A") ∅))
    = (Return true, snd (Battleship.apply (create_g "A") ∅))
  ∧ check_valid signed (fire_g "A" "B" "4") after_create_join
    = (Raise (KeyError (Some "Player1")), after_create_join)
  ∧ is_valid signed (fire_g "A" "B" "4") after_create_join
    = (Raise (KeyError (Some "Player1")), after_create_join).
Proof. split_and!; reflexivity. Qed.



Lemma second_create_rejected_witness :
  fst (is_valid signed (create_g "A") ∅) = Return true
  ∧ is_Some (only_g {[ "State" := "NEW" ]} !! _name (create_g "B"))
  ∧ check_valid signed (create_g "B") (only_g {[ "State" := "NEW" ]})
    = (Raise (BattleshipException "game already exists"),
       only_g {[ "State" := "NEW" ]})
  ∧ is_valid signed (create_g "B") (only_g {[ "State" := "NEW" ]})
    = (Return false, only_g {[ "State" := "NEW" ]}).
Proof.
  assert (is_Some (only_g {[ "State" := "NEW" ]} !! _name (create_g "B")))
    as Hin by (by eexists).
  split_and!; [reflexivity|exact Hin|..];
    apply (second_create_rejected signed (create_g "A") ∅ (create_g "B")
             (only_g {[ "State" := "NEW" ]}));
    solve [reflexivity | exact Hin].
Defined.


(** ** Further properties of the validator and the applier *)

(** X7.  The name pattern accepts exactly the strings of letters and
    digits and those strings followed by one newline. *)
Theorem re_match_name_iff (s : string) :
  re_match_name s = true
  ↔ ∃ p, alnum_string p ∧ (s = p ∨ s = p ++ String newline "").
Proof.
  split.
  - induction s as [|c s IH]; simpl.
    + intros _. exists "". split; [constructor|by left].
    + destruct (is_alnum c) eqn:Hc.
      * intros (p & Hp & Hs)%IH. exists (String c p). split.
        { by constructor. }
        destruct Hs as [-> | ->]; [by left|by right].
      * intros [Hn Hs]%andb_true_iff.
        apply bool_decide_eq_true in Hn, Hs. subst.
        exists "". split; [constructor|by right].
  - intros (p & Hp & Hs).
    destruct (re_match_name_alnum p Hp) as [H1 H2].
    by destruct Hs as [-> | ->].
Qed.

Section Further.

Variable super_is_valid : BattleshipTransaction → store → bool.

Lemma accepted_run self s :
  fst (is_valid super_is_valid self s) = Return true →
  check_valid_run super_is_valid self s (Return ()).
Proof.
  intros H%is_valid_true.
  destruct (check_valid super_is_valid self s) as [r s'] eqn:Hcv.
  simpl in H. subst r. by apply check_valid_run_complete in Hcv as [? _].
Qed.

Lemma run_accepted self s :
  check_valid_run super_is_valid self s (Return ()) →
  fst (is_valid super_is_valid self s) = Return true.
Proof.
  intros H%check_valid_run_sound. apply is_valid_true. by rewrite H.
Qed.

Lemma unset_is_invalid self s :
  unset (_name self) = true ∨ unset (_action self) = true →
  is_valid super_is_valid self s = (Return false, s).
Proof.
  intros Hun. rewrite is_valid_unfold.
  destruct (super_is_valid self s) eqn:Hs.
  - destruct (unset (_name self)) eqn:Hn.
    + by rewrite (check_valid_run_sound _ _ _ _ (cv_no_name _ _ _ Hs Hn)).
    + destruct Hun as [?|Ha]; [done|].
      by rewrite (check_valid_run_sound _ _ _ _ (cv_no_action _ _ _ Hs Hn Ha)).
  - by rewrite (check_valid_run_sound _ _ _ _ (cv_invalid _ _ _ Hs)).
Qed.

(** *** Validation and application together *)

(** X1.  A transaction that [is_valid] accepts is applied without any
    exception. *)
Theorem accepted_apply_returns self s :
  fst (is_valid super_is_valid self s) = Return true →
  fst (Battleship.apply self s) = Return ().
Proof.
  intros Hrun%accepted_run.
  inversion Hrun as [| | | | |n Hp Ha Hin Hn Hre| |Hp Ha [g Hg]|r Hp Ha Hf|]; subst.
  - by rewrite (apply_run_sound _ _ _ _ (ap_create _ _ Ha)).
  - by rewrite (apply_run_sound _ _ _ _ (ap_join _ _ _ Ha Hg)).
  - inversion Hf as [| | | | |g Hg Hst Hpl| | |g Hg Hst Hpl|]; subst.
    + by rewrite (apply_run_sound _ _ _ _ (ap_fire_p1 _ _ _ Ha Hg Hst)).
    + by rewrite (apply_run_sound _ _ _ _ (ap_fire_p2 _ _ _ Ha Hg Hst)).
Qed.

(** X2.  [apply] leaves every game other than the one the transaction
    names as it was. *)
Theorem apply_frame self s k :
  k ≠ _name self →
  snd (Battleship.apply self s) !! k = s !! k.
Proof.
  intros Hk. destruct (Battleship.apply self s) as [r s'] eqn:H.
  apply apply_run_complete in H. simpl.
  inversion H; subst; by rewrite ?lookup_insert_ne.
Qed.


(** *** What is accepted *)

(** X4.  A Fire is accepted exactly when the base check passes, the name
    is set, the game exists and it is the signer's turn: the state is
    [P1-NEXT] and the signer is ['Player1'], or the state is [P2-NEXT]
    and the signer is ['Player2']. *)
Theorem fire_accepted_iff self s :
  _action self = Some "FIRE" →
  fst (is_valid super_is_valid self s) = Return true
  ↔ super_is_valid self s = true ∧ unset (_name self) = false
    ∧ ∃ g, s !! _name self = Some g
        ∧ ((g !! "State" = Some "P1-NEXT"
            ∧ g !! "Player1" = Some (OriginatorID self))
           ∨ (g !! "State" = Some "P2-NEXT"
              ∧ g !! "Player2" = Some (OriginatorID self))).
Proof.
  intros Ha. split.
  - intros Hrun%accepted_run.
    inversion Hrun as [| | | | | | | |r Hp _ Hf|]; subst; try congruence.
    destruct Hp as (Hs & Hn & _). split_and!; [done..|].
    inversion Hf; subst; eauto 6.
  - intros (Hs & Hn & g & Hg & Hturn). apply run_accepted.
    apply cv_fire; [split_and!; [done..|by rewrite Ha]|done|].
    destruct Hturn as [[Hst Hp]|[Hst Hp]];
      [by eapply cf_p1_ok|by eapply cf_p2_ok].
Qed.

(** X5.  A Create is accepted exactly when the base check passes and
    the name is a non-empty string, absent from the store, that matches
    the pattern. *)
Theorem create_accepted_iff self s :
  _action self = Some "CREATE" →
  fst (is_valid super_is_valid self s) = Return true
  ↔ super_is_valid self s = true
    ∧ ∃ n, _name self = Some n ∧ n ≠ "" ∧ s !! Some n = None
           ∧ re_match_name n = true.
Proof.
  intros Ha. split.
  - intros Hrun%accepted_run.
    inversion Hrun as [| | | | |n Hp _ Hin Hn Hre| | | |]; subst;
      try congruence.
    destruct Hp as (Hs & Hset & _). split; [done|].
    exists n. apply unset_false in Hset as (m & Hm & Hne).
    rewrite Hn in Hin. by simplify_eq.
  - intros (Hs & n & Hn & Hne & Hin & Hre). apply run_accepted.
    apply (cv_create_ok _ _ _ n); [|done|by rewrite Hn|done..].
    split_and!; [done|apply unset_false; eauto|by rewrite Ha].
Qed.

(** X6.  An accepted transaction has passed the base check, has a
    non-empty name, and is a Create of an absent name or a Join or a
    Fire of a present one; no other action is ever accepted. *)
Theorem accepted_is_known_action self s :
  fst (is_valid super_is_valid self s) = Return true →
  super_is_valid self s = true
  ∧ (∃ n, _name self = Some n ∧ n ≠ "")
  ∧ (_action self = Some "CREATE" ∧ s !! _name self = None
     ∨ _action self = Some "JOIN" ∧ is_Some (s !! _name self)
     ∨ _action self = Some "FIRE" ∧ is_Some (s !! _name self)).
Proof.
  intros Hrun%accepted_run.
  inversion Hrun as [| | | | |n Hp Ha Hin Hn Hre| |Hp Ha Hin|r Hp Ha Hf|];
    subst; destruct Hp as (Hs & Hset%unset_false & _);
    split_and!; try done; eauto.
  inversion Hf; subst; eauto 6.
Qed.

(** X8.  A Create whose name is letters and digits followed by a
    newline is accepted when the name is free. *)
Theorem create_accepts_trailing_newline self s p :
  super_is_valid self s = true →
  _action self = Some "CREATE" →
  _name self = Some (p ++ String newline "") →
  alnum_string p →
  s !! Some (p ++ String newline "") = None →
  is_valid super_is_valid self s = (Return true, s).
Proof.
  intros Hs Ha Hn Hp Hin. rewrite is_valid_unfold.
  assert (check_valid_run super_is_valid self s (Return ())) as Hrun.
  { eapply cv_create_ok;
      [|done|by rewrite Hn|done|by apply re_match_name_alnum].
    split_and!; [done| |by rewrite Ha].
    apply unset_false. eexists. split; [done|]. by destruct p. }
  by rewrite (check_valid_run_sound _ _ _ _ Hrun).
Qed.

(** X18.  The transaction of a message that carries no ['Transaction']
    entry is never valid, whatever the store and the base check. *)
Theorem message_without_transaction_invalid minfo who s :
  default ∅ minfo !! "Transaction" = None →
  is_valid super_is_valid (message_transaction minfo who) s
  = (Return false, s).
Proof.
  intros Hm. apply unset_is_invalid. left.
  unfold message_transaction. simpl. by rewrite Hm.
Qed.

Lemma check_fire_run_local self s s' r :
  s !! _name self = s' !! _name self →
  check_fire_run self s r → check_fire_run self s' r.
Proof.
  intros Heq Hrun. destruct Hrun; rewrite Heq in *; eauto using check_fire_run.
Qed.

(** X9.  The verdict of [check_valid] depends on the store through the
    record of the named game only (and through the base check). *)
Theorem check_valid_local self s s' :
  s !! _name self = s' !! _name self →
  super_is_valid self s = super_is_valid self s' →
  fst (check_valid super_is_valid self s)
  = fst (check_valid super_is_valid self s').
Proof.
  intros Heq Hsv.
  destruct (check_valid super_is_valid self s) as [r s1] eqn:H.
  apply check_valid_run_complete in H as [Hrun _]. simpl.
  assert (check_valid_run super_is_valid self s' r) as Hrun'.
  { destruct Hrun; unfold passes_generic in *; rewrite ?Heq, ?Hsv in *;
      eauto using check_valid_run, check_fire_run_local. }
  by rewrite (check_valid_run_sound _ _ _ _ Hrun').
Qed.

(** *** How applications compose *)

Lemma apply_fire_flip self s g st st' :
  _action self = Some "FIRE" → s !! _name self = Some g →
  g !! "State" = Some st →
  st = "P1-NEXT" ∧ st' = "P2-NEXT" ∨ st = "P2-NEXT" ∧ st' = "P1-NEXT" →
  Battleship.apply self s
  = (Return (), <[_name self := <["State" := st']> g]> s).
Proof.
  intros Ha Hg Hst [[-> ->]|[-> ->]]; apply apply_run_sound;
    [by apply ap_fire_p1|by apply ap_fire_p2].
Qed.

(** X10.  Applying two Fires on a game in [P1-NEXT] or [P2-NEXT] gives
    back the store as it was before the first. *)
Theorem fire_twice_restores first second s g st :
  _action first = Some "FIRE" → _action second = Some "FIRE" →
  _name second = _name first →
  s !! _name first = Some g → g !! "State" = Some st →
  st = "P1-NEXT" ∨ st = "P2-NEXT" →
  Battleship.apply second (snd (Battleship.apply first s)) = (Return (), s).
Proof.
  intros Ha1 Ha2 Hn Hg Hst Hrunning.
  assert (∃ st', st = "P1-NEXT" ∧ st' = "P2-NEXT"
                 ∨ st = "P2-NEXT" ∧ st' = "P1-NEXT") as [st' Hflip].
  { destruct Hrunning; eauto. }
  rewrite (apply_fire_flip first s g st st') by done. simpl.
  rewrite (apply_fire_flip second _ (<["State" := st']> g) st' st).
  - rewrite Hn, !insert_insert_eq.
    by rewrite (insert_id g "State" st), insert_id.
  - done.
  - rewrite Hn. apply lookup_insert_eq.
  - apply lookup_insert_eq.
  - destruct Hflip as [[-> ->]|[-> ->]]; eauto.
Qed.

(** X11.  Applying a transaction other than a Fire a second time
    changes nothing more: same outcome, same store. *)
Theorem apply_again_same self s :
  _action self ≠ Some "FIRE" →
  Battleship.apply self (snd (Battleship.apply self s))
  = Battleship.apply self s.
Proof.
  intros Hnf. destruct (Battleship.apply self s) as [r s'] eqn:H.
  apply apply_run_complete in H. simpl.
  inversion H as [Ha|Ha Hg|g Ha Hg| | | | | |]; subst; try congruence.
  - rewrite (apply_run_sound _ _ _ _ (ap_create self _ Ha)).
    by rewrite insert_insert_eq.
  - by apply apply_run_sound, ap_join_missing.
  - erewrite apply_run_sound;
      [|eapply ap_join; [done|apply lookup_insert_eq]].
    by rewrite !insert_insert_eq.
  - by apply apply_run_sound, ap_unknown.
Qed.

(** *** Stores made by validated transactions *)

Lemma opened_no_player g f : opened g → f ≠ "State" → g !! f = None.
Proof. intros [-> | ->] Hf; by rewrite lookup_singleton_ne. Qed.


Lemma family_store_empty : family_store ∅.
Proof. intros k g Hk. by rewrite lookup_empty in Hk. Qed.

(** X12.  Applying an accepted transaction keeps the shape of the
    store: every key is a name that Create accepts and every record is
    [{'State': 'NEW'}] or [{'State': 'P1-NEXT'}]. *)
Theorem family_store_kept self s :
  family_store s →
  fst (is_valid super_is_valid self s) = Return true →
  family_store (snd (Battleship.apply self s)).
Proof.
  intros Hfam Hrun%accepted_run.
  inversion Hrun as [| | | | |n Hp Ha Hin Hn Hre| |Hp Ha [g Hg]|r Hp Ha Hf|];
    subst.
  - rewrite (apply_run_sound _ _ _ _ (ap_create _ _ Ha)). simpl.
    destruct Hp as (_ & (m & Hm & Hne)%unset_false & _).
    intros k g'. rewrite lookup_insert. case_decide; [|by apply Hfam].
    intros [= <-]. split; [|by left]. exists m. by simplify_eq.
  - rewrite (apply_run_sound _ _ _ _ (ap_join _ _ _ Ha Hg)). simpl.
    destruct (Hfam _ _ Hg) as [Hname Hopen].
    intros k g'. rewrite lookup_insert. case_decide; [|by apply Hfam].
    intros [= <-]. subst k. split; [done|]. right.
    destruct Hopen as [-> | ->]; by rewrite insert_singleton_eq.
  - inversion Hf as [| | | | |g Hg Hst Hpl| | |g Hg Hst Hpl|]; subst;
      destruct (Hfam _ _ Hg) as [_ Hopen];
      by rewrite (opened_no_player _ _ Hopen) in Hpl.
Qed.


(** With name and action strings or [None]: when the record of the
    named game, if there is one, has the three fields that Fire reads,
    [is_valid] returns a boolean. *)
Lemma complete_records_no_exception self s :
  (∀ g, s !! _name self = Some g → complete g) →
  ∃ b, is_valid super_is_valid self s = (Return b, s).
Proof.
  intros Hc. rewrite is_valid_unfold.
  destruct (check_valid super_is_valid self s) as [r s'] eqn:H.
  apply check_valid_run_complete in H as [Hrun ->].
  inversion Hrun as [| | | | | | | |r' Hp _ Hf|]; subst; eauto.
  inversion Hf as [|g Hg Hst| |g Hg Hst Hp1| | |g Hg Hst Hp2| | |]; subst;
    eauto; destruct (Hc _ Hg) as ([? ?] & [? ?] & [? ?]); congruence.
Qed.

(** X19.  After an accepted Create of a game and a Join of it that
    passes the base check, the Join is accepted, the record of the game
    is [{'State': 'P1-NEXT'}], and validating a Fire on it raises the
    [KeyError] of ['Player1']. *)
Theorem create_join_then_fire create join fire s :
  _action create = Some "CREATE" →
  fst (is_valid super_is_valid create s) = Return true →
  _action join = Some "JOIN" → _name join = _name create →
  _action fire = Some "FIRE" → _name fire = _name create →
  super_is_valid join (snd (Battleship.apply create s)) = true →
  super_is_valid fire
    (snd (Battleship.apply join (snd (Battleship.apply create s)))) = true →
  snd (Battleship.apply create s) !! _name create
    = Some {[ "State" := "NEW" ]}
  ∧ fst (is_valid super_is_valid join (snd (Battleship.apply create s)))
    = Return true
  ∧ snd (Battleship.apply join (snd (Battleship.apply create s)))
      !! _name create = Some {[ "State" := "P1-NEXT" ]}
  ∧ fst (is_valid super_is_valid fire
           (snd (Battleship.apply join (snd (Battleship.apply create s)))))
    = Raise (KeyError (Some "Player1")).
Proof.
  intros Hac Hok Haj Hnj Haf Hnf.
  apply is_valid_true, accepted_passes_generic in Hok as (_ & Hn & _).
  rewrite (apply_run_sound _ _ _ _ (ap_create create s Hac)). simpl.
  set (s1 := <[_name create := {[ "State" := "NEW" ]}]> s).
  assert (s1 !! _name join = Some {[ "State" := "NEW" ]}) as Hg1.
  { rewrite Hnj. apply lookup_insert_eq. }
  rewrite (apply_run_sound _ _ _ _ (ap_join join s1 _ Haj Hg1)). simpl.
  rewrite insert_singleton_eq.
  set (s2 := <[_name join := {[ "State" := "P1-NEXT" ]}]> s1).
  assert (s2 !! _name fire = Some {[ "State" := "P1-NEXT" ]}) as Hg2.
  { rewrite Hnf, <- Hnj. apply lookup_insert_eq. }
  intros Hs1 Hs2. split_and!.
  - apply lookup_insert_eq.
  - apply run_accepted, cv_join_ok; [|done|by eexists].
    split_and!; [done|by rewrite Hnj|by rewrite Haj].
  - rewrite <- Hnf. done.
  - assert (check_valid_run super_is_valid fire s2
              (Raise (KeyError (Some "Player1")))) as Hrun.
    { apply cv_fire; [|done|].
      - split_and!; [done|by rewrite Hnf|by rewrite Haf].
      - by eapply cf_p1_no_player. }
    by rewrite is_valid_unfold, (check_valid_run_sound _ _ _ _ Hrun).
Qed.

(** *** Exceptions for textual records *)

(** X14.  For a transaction built from a record whose ['Name'] and
    ['Action'] entries, when present, are strings or [None]: if the
    record of the named game, when there is one, has the fields
    ['State'], ['Player1'] and ['Player2'], then [is_valid] returns a
    boolean, raises nothing and leaves the store as it was. *)
Theorem textual_complete_no_exception (minfo : info) who s :
  (∀ g, s !! _name (init_info minfo who) = Some g → complete g) →
  ∃ b, is_valid super_is_valid (init_info minfo who) s = (Return b, s).
Proof. apply complete_records_no_exception. Qed.

(** X15.  For a transaction built from a record whose ['Name'] and
    ['Action'] entries, when present, are strings or [None]: whatever
    [check_valid] raises is a [BattleshipException] or, during a Fire
    only, the [KeyError] of a missing ['State'], ['Player1'] or
    ['Player2'] field. *)
Theorem textual_check_valid_raises (minfo : info) who s e :
  fst (check_valid super_is_valid (init_info minfo who) s) = Raise e →
  (∃ msg, e = BattleshipException msg)
  ∨ (minfo !! "Action" = Some (Some "FIRE")
     ∧ ∃ f, e = KeyError (Some f) ∧ f ∈ ["State"; "Player1"; "Player2"]).
Proof.
  intros [Hb|[Ha Hk]]%check_valid_raises; [by left|right].
  split; [|done]. simpl in Ha.
  by destruct (minfo !! "Action") as [[a|]|]; simplify_eq/=.
Qed.

End Further.

(** X17.  Building a transaction from what [dump] returns gives the
    transaction back, whatever the base class put into the dict, and
    [dump] leaves the entries of the base class other than ['Name'] and
    ['Action'] as they are. *)
Theorem dump_init_round_trip (base : info) self :
  init_info (dump base self) (OriginatorID self) = self
  ∧ ∀ k, k ≠ "Name" → k ≠ "Action" → dump base self !! k = base !! k.
Proof.
  split.
  - destruct self as [n a o]. unfold init_info, dump. simpl.
    rewrite lookup_insert_eq, lookup_insert_ne by done.
    by rewrite lookup_insert_eq.
  - intros k H1 H2. unfold dump. by rewrite !lookup_insert_ne.
Qed.

Lemma init_info_init (minfo : gmap string string) who :
  init_info (Some <$> minfo) who = init minfo who.
Proof.
  unfold init_info, init. rewrite !lookup_fmap.
  by destruct (minfo !! "Name"), (minfo !! "Action").
Qed.

(** ** The further properties on sample inputs *)

Lemma accepted_apply_returns_witness :
  fst (is_valid signed (fire_g "A" "B" "4") two_games) = Return true
  ∧ fst (Battleship.apply (fire_g "A" "B" "4") two_games) = Return ().
Proof.
  split; [reflexivity|].
  apply (accepted_apply_returns signed). reflexivity.
Defined.

Lemma apply_frame_witness :
  snd (Battleship.apply (fire_g "A" "B" "4") two_games) !! Some "h"
  = two_games !! Some "h".
Proof. apply apply_frame. discriminate. Defined.


Lemma fire_accepted_iff_witness :
  fst (is_valid signed (fire_g "B" "B" "4") two_games) = Return false
  ∧ (fst (is_valid signed (fire_g "A" "B" "4") two_games) = Return true
     ↔ signed (fire_g "A" "B" "4") two_games = true
       ∧ unset (_name (fire_g "A" "B" "4")) = false
       ∧ ∃ g, two_games !! _name (fire_g "A" "B" "4") = Some g
           ∧ ((g !! "State" = Some "P1-NEXT"
               ∧ g !! "Player1" = Some (OriginatorID (fire_g "A" "B" "4")))
              ∨ (g !! "State" = Some "P2-NEXT"
                 ∧ g !! "Player2"
                   = Some (OriginatorID (fire_g "A" "B" "4"))))).
Proof.
  split; [reflexivity|].
  apply (fire_accepted_iff signed (fire_g "A" "B" "4") two_games).
  reflexivity.
Defined.

Lemma create_accepted_iff_witness :
  fst (is_valid signed (create_g "A") ∅) = Return true
  ↔ signed (create_g "A") ∅ = true
    ∧ ∃ n, _name (create_g "A") = Some n ∧ n ≠ ""
           ∧ (∅ : store) !! Some n = None ∧ re_match_name n = true.
Proof. apply (create_accepted_iff signed (create_g "A") ∅). reflexivity. Defined.

Lemma accepted_is_known_action_witness :
  signed (join_g "C") two_games = true
  ∧ (∃ n, _name (join_g "C") = Some n ∧ n ≠ "")
  ∧ (_action (join_g "C") = Some "CREATE"
       ∧ two_games !! _name (join_g "C") = None
     ∨ _action (join_g "C") = Some "JOIN"
       ∧ is_Some (two_games !! _name (join_g "C"))
     ∨ _action (join_g "C") = Some "FIRE"
       ∧ is_Some (two_games !! _name (join_g "C"))).
Proof. apply (accepted_is_known_action signed). reflexivity. Defined.

Lemma create_accepts_trailing_newline_witness :
  is_valid signed
    (init {[ "Name" := "ab" ++ String newline ""; "Action" := "CREATE" ]} "A")
    two_games
  = (Return true, two_games).
Proof.
  apply (create_accepts_trailing_newline signed _ _ "ab");
    try reflexivity.
  repeat constructor.
Defined.

Lemma message_without_transaction_invalid_witness :
  is_valid signed (message_transaction None "A") two_games
  = (Return false, two_games).
Proof. apply message_without_transaction_invalid. reflexivity. Defined.

Lemma check_valid_local_witness :
  fst (check_valid signed (fire_g "A" "B" "4") two_games)
  = fst (check_valid signed (fire_g "A" "B" "4")
           (only_g (game_in "P1-NEXT"))).
Proof. apply check_valid_local; reflexivity. Defined.

Lemma fire_twice_restores_witness :
  Battleship.apply (fire_g "B" "C" "7")
    (snd (Battleship.apply (fire_g "A" "B" "4") two_games))
  = (Return (), two_games).
Proof.
  apply (fire_twice_restores (fire_g "A" "B" "4") (fire_g "B" "C" "7")
           two_games (game_in "P1-NEXT") "P1-NEXT");
    try reflexivity.
  by left.
Defined.

Lemma apply_again_same_witness :
  Battleship.apply (join_g "A") (snd (Battleship.apply (join_g "A") two_games))
  = Battleship.apply (join_g "A") two_games.
Proof. apply apply_again_same. discriminate. Defined.

Lemma family_store_kept_witness :
  fst (is_valid signed (create_g "A") ∅) = Return true
  ∧ family_store (snd (Battleship.apply (create_g "A") ∅)).
Proof.
  split; [reflexivity|].
  apply (family_store_kept signed); [apply family_store_empty|reflexivity].
Defined.



Lemma textual_complete_no_exception_witness :
  ∃ b, is_valid signed
         (init_info {[ "Name" := Some "g"; "Action" := Some "FIRE" ]} "B")
         two_games
       = (Return b, two_games).
Proof.
  apply textual_complete_no_exception.
  intros g Hg. change (Some (game_in "P1-NEXT") = Some g) in Hg.
  injection Hg as <-. by split_and!; eexists.
Defined.

Lemma create_join_then_fire_witness :
  snd (Battleship.apply (create_g "A") ∅) !! _name (create_g "A")
    = Some {[ "State" := "NEW" ]}
  ∧ fst (is_valid signed (join_g "B")
           (snd (Battleship.apply (create_g "A") ∅))) = Return true
  ∧ snd (Battleship.apply (join_g "B")
           (snd (Battleship.apply (create_g "A") ∅))) !! _name (create_g "A")
    = Some {[ "State" := "P1-NEXT" ]}
  ∧ fst (is_valid signed (fire_g "A" "B" "4")
           (snd (Battleship.apply (join_g "B")
                   (snd (Battleship.apply (create_g "A") ∅)))))
    = Raise (KeyError (Some "Player1")).
Proof.
  apply (create_join_then_fire signed (create_g "A") (join_g "B")
           (fire_g "A" "B" "4") ∅); reflexivity.
Defined.

Lemma textual_check_valid_raises_witness :
  (∃ msg, KeyError (Some "Player1") = BattleshipException msg)
  ∨ (({[ "Name" := Some "g"; "Action" := Some "FIRE" ]} : info) !! "Action"
       = Some (Some "FIRE")
     ∧ ∃ f, KeyError (Some "Player1") = KeyError (Some f)
            ∧ f ∈ ["State"; "Player1"; "Player2"]).
Proof.
  apply (textual_check_valid_raises signed
           {[ "Name" := Some "g"; "Action" := Some "FIRE" ]} "A"
           after_create_join).
  reflexivity.
Defined.

Lemma apply_fire_touches_state_only_witness :
  ∃ g', only_g (game_in "P2-NEXT") !! _name (fire_g "A" "B" "4") = Some g'
        ∧ (∀ f, f ≠ "State" → g' !! f = game_in "P1-NEXT" !! f)
        ∧ (∀ st, st = "P1-WIN" ∨ st = "P2-WIN" →
                 g' !! "State" = Some st →
                 game_in "P1-NEXT" !! "State" = Some st).
Proof.
  apply (apply_fire_touches_state_only (fire_g "A" "B" "4")
           (only_g (game_in "P1-NEXT")) (game_in "P1-NEXT") (Return ()));
    reflexivity.
Defined.

End Battleship.
